(** * MapReduce word counter: a shallow embedding and its properties

    The development follows [task_2_mapreduce_word_counter.py].  Python
    values are represented as follows.

    - A [str] is the list of its Unicode code points ([N]); [len] is the
      length of that list.
    - An [int] is a [Z].
    - A [dict] is an association list kept in insertion order with at most
      one entry per key, which is what CPython's dictionaries provide and
      what [sorted] over [dict.items()] observes.
    - [ThreadPoolExecutor.map] is modelled twice: by its documented result
      (the results in the order of the inputs) and, for the determinism
      statement, by futures that are filled in an arbitrary completion
      order. *)

From Stdlib Require Import Ascii String.
From Stdlib Require Import List Bool Arith ZArith NArith Lia.
From Stdlib Require Import Permutation Sorted.
Import ListNotations.

Set Implicit Arguments.

(** ** Strings *)

Module Str.

Definition char := N.
Definition str := list char.

Definition str_eq_dec : forall a b : str, {a = b} + {a <> b} :=
  list_eq_dec N.eq_dec.

(** Reading a source literal: the code points of an ASCII string. *)
Definition lit (s : string) : str :=
  map N_of_ascii (list_ascii_of_string s).

(** [string.punctuation], the 32 ASCII characters
    (code points 33 to 47, 58 to 64, 91 to 96 and 123 to 126). *)
Definition punctuation : str :=
  [33; 34; 35; 36; 37; 38; 39; 40; 41; 42; 43; 44; 45; 46; 47;
   58; 59; 60; 61; 62; 63; 64;
   91; 92; 93; 94; 95; 96;
   123; 124; 125; 126]%N.

(** [str.isspace] on one character, the test [str.split()] uses to find
    separators: the Unicode white space characters. *)
Definition isspace (c : char) : bool :=
  ((9 <=? c) && (c <=? 13) || (28 <=? c) && (c <=? 32)
   || (c =? 133) || (c =? 160) || (c =? 5760)
   || (8192 <=? c) && (c <=? 8202)
   || (c =? 8232) || (c =? 8233) || (c =? 8239) || (c =? 8287)
   || (c =? 12288))%N.

(** A translation table as [str.maketrans] builds it: code point to
    replacement, [None] standing for deletion. *)
Definition table := list (char * option str).

(** [str.maketrans] called with two empty strings and [z]: every character
    of [z] is mapped to [None]. *)
Definition maketrans_delete (z : str) : table :=
  map (fun c => (c, None)) z.

Fixpoint table_get (t : table) (c : char) : option (option str) :=
  match t with
  | [] => None
  | (k, v) :: t' => if N.eqb k c then Some v else table_get t' c
  end.

(** [s.translate(t)]: a character absent from the table is kept, one mapped
    to [None] is deleted, one mapped to a string is replaced by it. *)
Fixpoint translate (s : str) (t : table) : str :=
  match s with
  | [] => []
  | c :: s' =>
      match table_get t c with
      | None => c :: translate s' t
      | Some None => translate s' t
      | Some (Some r) => r ++ translate s' t
      end
  end.

(** [s.split()] with no separator: runs of white space separate the words,
    leading and trailing white space yields no empty word.  [cur] holds the
    characters of the word being read, most recent first. *)
Fixpoint split_from (cur : str) (s : str) : list str :=
  match s with
  | [] => match cur with [] => [] | _ => [rev cur] end
  | c :: s' =>
      if isspace c
      then match cur with
           | [] => split_from [] s'
           | _ => rev cur :: split_from [] s'
           end
      else split_from (c :: cur) s'
  end.

Definition split (s : str) : list str := split_from [] s.

End Str.

Import Str.

(** ** The tokenizer of [map_reduce] *)

(** [remove_punctuation(text)]. *)
Definition remove_punctuation (text : str) : str :=
  translate text (maketrans_delete punctuation).

(** The comprehension [[word for word in words if len(word) >= 4]]. *)
Definition long_enough (word : str) : bool := 4 <=? length word.

(** The first three statements of [map_reduce]: the value of [words] when
    the map stage starts. *)
Definition words_of (text : str) : list str :=
  let text := remove_punctuation text in
  let words := split text in
  filter long_enough words.

Definition is_punctuation (c : char) : bool := existsb (N.eqb c) punctuation.

(** ** Dictionaries and the other runtime operations *)

Module Py.

Section Dict.

Variables K V : Type.
Hypothesis K_eq_dec : forall a b : K, {a = b} + {a <> b}.

(** Entries in insertion order. *)
Definition dict := list (K * V).

Definition keys (d : dict) : list K := map fst d.

(** [d.items()]: the entries, traversed in insertion order. *)
Definition items (d : dict) : list (K * V) := d.

(** [d.get(k)]. *)
Fixpoint get (d : dict) (k : K) : option V :=
  match d with
  | [] => None
  | (k', v) :: d' => if K_eq_dec k' k then Some v else get d' k
  end.

(** [d.get(k, dflt)]. *)
Definition get_default (d : dict) (k : K) (dflt : V) : V :=
  match get d k with Some v => v | None => dflt end.

(** [d[k] = v]: an existing key keeps its position, a new one goes last. *)
Fixpoint set (d : dict) (k : K) (v : V) : dict :=
  match d with
  | [] => [(k, v)]
  | (k', v') :: d' =>
      if K_eq_dec k' k then (k', v) :: d' else (k', v') :: set d' k v
  end.

(** [dict(pairs)]: the pairs are stored one after the other. *)
Definition of_pairs (pairs : list (K * V)) : dict :=
  fold_left (fun d kv => set d (fst kv) (snd kv)) pairs [].

End Dict.

Section DefaultDict.

Variables K V : Type.
Hypothesis K_eq_dec : forall a b : K, {a = b} + {a <> b}.

(** [d[k].append(v)] on a [defaultdict(list)]: a missing key is first
    inserted, last, with the empty list. *)
Fixpoint append_at (d : dict K (list V)) (k : K) (v : V) : dict K (list V) :=
  match d with
  | [] => [(k, [v])]
  | (k', vs) :: d' =>
      if K_eq_dec k' k then (k', vs ++ [v]) :: d'
      else (k', vs) :: append_at d' k v
  end.

End DefaultDict.

(** The builtin [sum] over integers: a left fold from 0. *)
Definition sum (values : list Z) : Z := fold_left Z.add values 0%Z.

(** [xs[:n]]; a negative [n] counts from the end. *)
Definition slice_to (A : Type) (xs : list A) (n : Z) : list A :=
  if (n <? 0)%Z
  then firstn (Z.to_nat (Z.of_nat (length xs) + n)) xs
  else firstn (Z.to_nat n) xs.

Section Sorted.

Variable A : Type.
Variable key : A -> Z.

(** [sorted(xs, key=key, reverse=True)]: decreasing keys, and the sort is
    stable, so entries with equal keys stay in their original order. *)
Fixpoint insert_desc (x : A) (xs : list A) : list A :=
  match xs with
  | [] => [x]
  | y :: ys =>
      if (key x <? key y)%Z then y :: insert_desc x ys else x :: y :: ys
  end.

Fixpoint sorted_reverse (xs : list A) : list A :=
  match xs with
  | [] => []
  | x :: xs' => insert_desc x (sorted_reverse xs')
  end.

(** [a] may stand before [b] in a list of decreasing keys. *)
Definition decreasing (a b : A) : Prop := (key b <= key a)%Z.

End Sorted.

(** [executor.map(f, xs)] consumed by [list]: the results, in the order of
    the inputs. *)
Definition executor_map (A B : Type) (f : A -> B) (xs : list A) : list B :=
  map f xs.

(** Values that appear in tuples handed to [zip]. *)
Inductive value :=
| VStr (s : str)
| VInt (n : Z).

(** [zip] applied to the unpacked [rows]: no row gives nothing; otherwise the i-th result collects
    the i-th component of every row, up to the shortest row. *)
Fixpoint zip_star (rows : list (list value)) : list (list value) :=
  match rows with
  | [] => []
  | [row] => map (fun x => [x]) row
  | row :: rows' =>
      map (fun p => fst p :: snd p) (combine row (zip_star rows'))
  end.

Inductive exn := ValueError.

Inductive result (A : Type) :=
| Ok (a : A)
| Raise (e : exn).

Arguments Ok {A} a.
Arguments Raise {A} e.

(** [a, b = xs]: anything but two elements raises ValueError. *)
Definition unpack2 (A : Type) (xs : list A) : result (A * A) :=
  match xs with
  | [a; b] => Ok (a, b)
  | _ => Raise ValueError
  end.

End Py.

Import Py.

(** ** The map, shuffle and reduce stages *)

(** [map_function(word)]. *)
Definition map_function (word : str) : str * Z := (word, 1%Z).

(** [shuffle_function(mapped_values)]: the loop appends every value to the
    list of its key; the result is [shuffled.items()]. *)
Definition shuffle_function (mapped_values : list (str * Z))
  : list (str * list Z) :=
  let shuffled :=
    fold_left (fun d kv => append_at str_eq_dec d (fst kv) (snd kv))
              mapped_values [] in
  items shuffled.

(** [reduce_function(key_values)]. *)
Definition reduce_function (key_values : str * list Z) : str * Z :=
  let (key, values) := key_values in
  (key, sum values).

(** [map_reduce(text)]. *)
Definition map_reduce (text : str) : dict str Z :=
  let words := words_of text in
  let mapped_values := executor_map map_function words in
  let shuffled_values := shuffle_function mapped_values in
  let reduced_values := executor_map reduce_function shuffled_values in
  of_pairs str_eq_dec reduced_values.

(** ** Ranking and output *)

(** The value of [sorted_words] in [visualize_top_words]:
    [sorted(word_freq.items(), key=lambda item: item[1], reverse=True)[:top_n]]. *)
Definition sorted_words (word_freq : dict str Z) (top_n : Z)
  : list (str * Z) :=
  slice_to (sorted_reverse (fun item => snd item) (items word_freq)) top_n.

(** What [visualize_top_words] hands to the console and to the chart. *)
Record rendering := {
  printed : list (str * Z);
  pie_sizes : list value;
  pie_labels : list value
}.

Definition tuple_of (item : str * Z) : list value :=
  [VStr (fst item); VInt (snd item)].

(** [visualize_top_words(word_freq, top_n)] up to the calls into the
    plotting library. *)
Definition visualize_top_words (word_freq : dict str Z) (top_n : Z)
  : result rendering :=
  let sorted_words := sorted_words word_freq top_n in
  match unpack2 (zip_star (map tuple_of sorted_words)) with
  | Raise e => Raise e
  | Ok (words, frequencies) =>
      Ok {| printed := sorted_words;
            pie_sizes := frequencies;
            pie_labels := words |}
  end.

(** ** Worker pools with an explicit completion order *)

Module Pool.

Fixpoint update_at (A : Type) (xs : list A) (i : nat) (a : A) : list A :=
  match xs, i with
  | [], _ => []
  | _ :: xs', O => a :: xs'
  | x :: xs', S i' => x :: update_at xs' i' a
  end.

(** One future per submitted call, empty until its call has run. *)
Definition futures (B : Type) := list (option B).

Definition submit (A B : Type) (xs : list A) : futures B :=
  repeat None (length xs).

(** A worker completes call number [i]. *)
Definition complete (A B : Type) (f : A -> B) (xs : list A)
           (fs : futures B) (i : nat) : futures B :=
  match nth_error xs i with
  | Some x => update_at fs i (Some (f x))
  | None => fs
  end.

(** Reading the futures in submission order; [None] if one is still empty. *)
Fixpoint results (B : Type) (fs : futures B) : option (list B) :=
  match fs with
  | [] => Some []
  | None :: _ => None
  | Some b :: fs' =>
      match results fs' with
      | Some bs => Some (b :: bs)
      | None => None
      end
  end.

(** [list(executor.map(f, xs))] when the workers complete the calls in the
    order [order]. *)
Definition executor_map_run (A B : Type) (f : A -> B) (xs : list A)
           (order : list nat) : option (list B) :=
  results (fold_left (complete f xs) order (submit B xs)).

(** Every submitted call completes exactly once before the pool is left. *)
Definition completion_order (n : nat) (order : list nat) : Prop :=
  Permutation order (seq 0 n).

End Pool.

(** [map_reduce(text)] where the map stage completes in the order
    [map_order] and the reduce stage in the order [reduce_order]. *)
Definition map_reduce_run (map_order reduce_order : list nat) (text : str)
  : option (dict str Z) :=
  let words := words_of text in
  match Pool.executor_map_run map_function words map_order with
  | None => None
  | Some mapped_values =>
      let shuffled_values := shuffle_function mapped_values in
      match Pool.executor_map_run reduce_function shuffled_values
                                  reduce_order with
      | None => None
      | Some reduced_values => Some (of_pairs str_eq_dec reduced_values)
      end
  end.

(** ** Reference notions used in the statements *)

(** A direct single-pass frequency count: one dictionary, one increment per
    token. *)
Definition frequency_count (tokens : list str) : dict str Z :=
  fold_left
    (fun counts w => set str_eq_dec counts w
                         (get_default str_eq_dec counts w 0%Z + 1)%Z)
    tokens [].

(** The sum of the totals of a mapping. *)
Definition total_count (d : dict str Z) : Z := sum (map snd (items d)).

Section FirstSeen.

Variable A : Type.
Hypothesis A_eq_dec : forall a b : A, {a = b} + {a <> b}.

(** The distinct elements of a list in the order of their first
    occurrence. *)
Fixpoint first_seen (xs : list A) : list A :=
  match xs with
  | [] => []
  | x :: xs' => x :: remove A_eq_dec x (first_seen xs')
  end.

End FirstSeen.

(** The contributions of [word] in a pair sequence, in input order. *)
Definition contributions (word : str) (pairs : list (str * Z)) : list Z :=
  map snd (filter (fun kv => if str_eq_dec (fst kv) word then true else false)
                  pairs).

(** Decreasing totals. *)
Definition by_total_desc : str * Z -> str * Z -> Prop :=
  decreasing (fun item => snd item).

(** A contiguous piece of a string. *)
Definition substring (w s : str) : Prop :=
  exists before after, s = before ++ w ++ after.

(** A word as [split] delivers it: not empty, free of white space. *)
Definition is_word (w : str) : Prop :=
  w <> [] /\ forallb (fun c => negb (isspace c)) w = true.

(** What may follow a word: the end of the text or a white space character. *)
Definition at_break (s : str) : Prop :=
  match s with
  | [] => True
  | c :: _ => isspace c = true
  end.

(** ** The download and the main block *)

(** What [requests.get(url)] followed by [raise_for_status()] comes to: a
    response with its text, or a [requests.RequestException]. *)
Inductive http_outcome :=
| Response (text : str)
| RequestException.

(** The calls of [logging.error], by the place that makes them. *)
Inductive log_record :=
| DownloadError
| MainBlockError (e : exn).

(** [get_text(url)] given what the request does: the text, or [None] after
    logging the failure. *)
Definition get_text (outcome : http_outcome) : option str * list log_record :=
  match outcome with
  | Response text => (Some text, [])
  | RequestException => (None, [DownloadError])
  end.

(** The truth value of [text] in [if text:]: [None] and the empty string
    are false. *)
Definition truthy (text : option str) : bool :=
  match text with
  | Some (_ :: _) => true
  | _ => false
  end.

(** The main block: what is rendered, if anything, and what is logged.
    Every exception raised inside the [try] is caught and logged. *)
Definition main_block (outcome : http_outcome)
  : option rendering * list log_record :=
  let (text, log) := get_text outcome in
  if truthy text
  then
    match text with
    | Some text =>
        let result := map_reduce text in
        match visualize_top_words result 15 with
        | Ok shown => (Some shown, log)
        | Raise e => (None, log ++ [MainBlockError e])
        end
    | None => (None, log ++ [MainBlockError ValueError])
    end
  else (None, log ++ [MainBlockError ValueError]).

(** ** Further reference notions *)

(** The pairs that a sequence of groups stands for. *)
Definition ungroup (groups : list (str * list Z)) : list (str * Z) :=
  flat_map (fun g => map (fun v => (fst g, v)) (snd g)) groups.

(** Words joined by single spaces. *)
Fixpoint unwords (ws : list str) : str :=
  match ws with
  | [] => []
  | [w] => w
  | w :: ws' => w ++ 32%N :: unwords ws'
  end.

(** A word that the tokenizer leaves as it is. *)
Definition clean_word (w : str) : Prop :=
  4 <= length w
  /\ forallb (fun c => negb (isspace c)) w = true
  /\ forallb (fun c => negb (is_punctuation c)) w = true.

(** The entries with a given total. *)
Definition with_total (t : Z) (entries : list (str * Z)) : list (str * Z) :=
  filter (fun item => (snd item =? t)%Z) entries.

(** * Properties *)

(** ** Strings *)

Section StrFacts.

Lemma table_get_delete (z : str) (c : char) :
  table_get (maketrans_delete z) c
  = if existsb (N.eqb c) z then Some None else None.
Proof.
  induction z as [|k z IH]; simpl; [reflexivity|].
  rewrite (N.eqb_sym c k).
  destruct (N.eqb k c); simpl; [reflexivity | exact IH].
Qed.

Lemma translate_delete (z s : str) :
  translate s (maketrans_delete z)
  = filter (fun c => negb (existsb (N.eqb c) z)) s.
Proof.
  induction s as [|c s IH]; simpl; [reflexivity|].
  rewrite table_get_delete.
  destruct (existsb (N.eqb c) z); simpl; now rewrite IH.
Qed.

Lemma remove_punctuation_filter (text : str) :
  remove_punctuation text = filter (fun c => negb (is_punctuation c)) text.
Proof. apply translate_delete. Qed.

Lemma split_from_word (w cur s : str) :
  forallb (fun c => negb (isspace c)) w = true ->
  split_from cur (w ++ s) = split_from (rev w ++ cur) s.
Proof.
  revert cur.
  induction w as [|c w IH]; intros cur Hw; simpl in *; [reflexivity|].
  apply andb_prop in Hw as [Hc Hw].
  apply negb_true_iff in Hc. rewrite Hc.
  rewrite IH by exact Hw. rewrite <- app_assoc. reflexivity.
Qed.

Lemma split_nil : split [] = [].
Proof. reflexivity. Qed.

Lemma split_space (c : char) (s : str) :
  isspace c = true -> split (c :: s) = split s.
Proof. intros Hc. unfold split. simpl. now rewrite Hc. Qed.

Lemma split_word (w s : str) :
  is_word w -> at_break s -> split (w ++ s) = w :: split s.
Proof.
  intros [Hne Hw] Hs. unfold split.
  rewrite split_from_word by exact Hw. rewrite app_nil_r.
  assert (Hr : rev w <> []).
  { intros E. apply Hne. rewrite <- (rev_involutive w), E. reflexivity. }
  destruct s as [|c s]; simpl in *.
  - destruct (rev w) eqn:E; [congruence|].
    now rewrite <- E, rev_involutive.
  - rewrite Hs.
    destruct (rev w) eqn:E; [congruence|].
    now rewrite <- E, rev_involutive.
Qed.

Lemma rev_is_word (cur : str) :
  cur <> [] -> forallb (fun c => negb (isspace c)) cur = true ->
  is_word (rev cur).
Proof.
  intros Hne Hcur. split.
  - intros E. apply Hne. rewrite <- (rev_involutive cur), E. reflexivity.
  - rewrite forallb_forall in *. intros c Hc. apply Hcur.
    now apply in_rev.
Qed.

(** Every element of the result of [split] is a word and a contiguous
    piece of the string. *)
Lemma split_from_In (s cur w : str) :
  forallb (fun c => negb (isspace c)) cur = true ->
  In w (split_from cur s) ->
  is_word w /\ substring w (rev cur ++ s).
Proof.
  revert cur.
  induction s as [|c s IH]; intros cur Hcur Hin; simpl in Hin.
  - destruct cur as [|c0 cur]; [contradiction|].
    destruct Hin as [<-|[]]. split.
    + now apply rev_is_word.
    + exists [], []. now rewrite !app_nil_r.
  - destruct (isspace c) eqn:Hc.
    + assert (Hrest : In w (split_from [] s) ->
                      is_word w /\ substring w (rev cur ++ c :: s)).
      { intros H. destruct (IH [] eq_refl H) as [Hw (a & b & E)].
        split; [exact Hw|]. simpl in E.
        exists (rev cur ++ c :: a), b. rewrite E, <- app_assoc. reflexivity. }
      destruct cur as [|c0 cur]; [now apply Hrest|].
      destruct Hin as [<-|Hin]; [|now apply Hrest].
      split; [now apply rev_is_word|].
      exists [], (c :: s). reflexivity.
    + assert (Hcur' : forallb (fun c => negb (isspace c)) (c :: cur) = true).
      { simpl. now rewrite Hc, Hcur. }
      destruct (IH _ Hcur' Hin) as [Hw (a & b & E)].
      split; [exact Hw|].
      exists a, b. rewrite <- E. simpl. now rewrite <- app_assoc.
Qed.

Lemma split_In (s w : str) :
  In w (split s) -> is_word w /\ substring w s.
Proof. intros H. exact (split_from_In s [] w eq_refl H). Qed.

End StrFacts.

(** ** Dictionaries *)

Section DictFacts.

Variables K V : Type.
Hypothesis K_eq_dec : forall a b : K, {a = b} + {a <> b}.

Lemma get_set (d : dict K V) (k k' : K) (v : V) :
  get K_eq_dec (set K_eq_dec d k v) k'
  = if K_eq_dec k k' then Some v else get K_eq_dec d k'.
Proof.
  induction d as [|[k0 v0] d IH]; simpl.
  - reflexivity.
  - destruct (K_eq_dec k0 k) as [->|Hk]; simpl.
    + destruct (K_eq_dec k k'); reflexivity.
    + rewrite IH.
      destruct (K_eq_dec k0 k') as [->|]; [|reflexivity].
      destruct (K_eq_dec k k'); [congruence | reflexivity].
Qed.

Lemma get_None (d : dict K V) (k : K) :
  ~ In k (keys d) -> get K_eq_dec d k = None.
Proof.
  induction d as [|[k0 v0] d IH]; simpl; intros H; [reflexivity|].
  destruct (K_eq_dec k0 k); [tauto|]. apply IH. tauto.
Qed.

Lemma get_In_keys (d : dict K V) (k : K) (v : V) :
  get K_eq_dec d k = Some v -> In k (keys d).
Proof.
  induction d as [|[k0 v0] d IH]; simpl; [discriminate|].
  destruct (K_eq_dec k0 k); [now left | right; now apply IH].
Qed.

Lemma get_In (d : dict K V) (k : K) (v : V) :
  NoDup (keys d) -> In (k, v) d -> get K_eq_dec d k = Some v.
Proof.
  induction d as [|[k0 v0] d IH]; simpl; intros Hnd Hin; [contradiction|].
  inversion Hnd as [|? ? Hnotin Hnd']; subst.
  destruct Hin as [E|Hin].
  - inversion E; subst. destruct (K_eq_dec k k); [reflexivity | congruence].
  - destruct (K_eq_dec k0 k) as [->|].
    + exfalso. apply Hnotin. change (In (fst (k, v)) (map fst d)).
      now apply in_map.
    + now apply IH.
Qed.

Lemma set_fresh (d : dict K V) (k : K) (v : V) :
  ~ In k (keys d) -> set K_eq_dec d k v = d ++ [(k, v)].
Proof.
  induction d as [|[k0 v0] d IH]; simpl; intros H; [reflexivity|].
  destruct (K_eq_dec k0 k); [tauto|]. rewrite IH; tauto.
Qed.

Lemma keys_set (d : dict K V) (k : K) (v : V) :
  keys (set K_eq_dec d k v)
  = if in_dec K_eq_dec k (keys d) then keys d else keys d ++ [k].
Proof.
  induction d as [|[k0 v0] d IH]; simpl; [reflexivity|].
  destruct (K_eq_dec k0 k) as [->|Hk]; simpl; [reflexivity|].
  fold (keys d). rewrite IH.
  destruct (in_dec K_eq_dec k (keys d)); reflexivity.
Qed.

Lemma of_pairs_from (pairs acc : list (K * V)) :
  NoDup (keys (acc ++ pairs)) ->
  fold_left (fun d kv => set K_eq_dec d (fst kv) (snd kv)) pairs acc
  = acc ++ pairs.
Proof.
  revert acc.
  induction pairs as [|[k v] pairs IH]; intros acc Hnd; simpl.
  - now rewrite app_nil_r.
  - assert (Hk : ~ In k (keys acc)).
    { unfold keys in *. rewrite map_app in Hnd. simpl in Hnd.
      apply NoDup_remove_2 in Hnd. intros H. apply Hnd.
      apply in_or_app. now left. }
    rewrite set_fresh by exact Hk.
    replace (acc ++ (k, v) :: pairs) with ((acc ++ [(k, v)]) ++ pairs)
      by now rewrite <- app_assoc.
    apply IH. now rewrite <- app_assoc.
Qed.

(** Pairs with distinct keys are stored as they come. *)
Lemma of_pairs_NoDup (pairs : list (K * V)) :
  NoDup (keys pairs) -> of_pairs K_eq_dec pairs = pairs.
Proof. intros H. exact (of_pairs_from pairs [] H). Qed.

Lemma keys_append_at (d : dict K (list V)) (k : K) (v : V) :
  keys (append_at K_eq_dec d k v)
  = if in_dec K_eq_dec k (keys d) then keys d else keys d ++ [k].
Proof.
  induction d as [|[k0 vs] d IH]; simpl; [reflexivity|].
  destruct (K_eq_dec k0 k) as [->|Hk]; simpl; [reflexivity|].
  fold (keys d). fold (keys (append_at K_eq_dec d k v)). rewrite IH.
  destruct (in_dec K_eq_dec k (keys d)); reflexivity.
Qed.

Lemma get_append_at (d : dict K (list V)) (k k' : K) (v : V) :
  get K_eq_dec (append_at K_eq_dec d k v) k'
  = if K_eq_dec k k'
    then Some (get_default K_eq_dec d k [] ++ [v])
    else get K_eq_dec d k'.
Proof.
  unfold get_default.
  induction d as [|[k0 vs] d IH]; simpl.
  - destruct (K_eq_dec k k'); reflexivity.
  - destruct (K_eq_dec k0 k) as [->|Hk]; simpl.
    + destruct (K_eq_dec k k'); reflexivity.
    + rewrite IH.
      destruct (K_eq_dec k0 k') as [->|]; [|reflexivity].
      destruct (K_eq_dec k k'); [congruence | reflexivity].
Qed.

(** A dictionary is determined by its keys once every value is. *)
Lemma dict_by_keys (d : dict K V) (c : K -> V) :
  (forall k v, In (k, v) d -> v = c k) ->
  d = map (fun k => (k, c k)) (keys d).
Proof.
  induction d as [|[k0 v0] d IH]; simpl; intros H; [reflexivity|].
  rewrite (H k0 v0) by now left. f_equal.
  apply IH. intros k v Hin. apply H. now right.
Qed.

End DictFacts.

(** ** First occurrences *)

Section FirstSeenFacts.

Variable A : Type.
Hypothesis A_eq_dec : forall a b : A, {a = b} + {a <> b}.

Lemma NoDup_remove_elt (x : A) (l : list A) :
  NoDup l -> NoDup (remove A_eq_dec x l).
Proof.
  induction 1 as [|y l Hy Hnd IH]; simpl; [constructor|].
  destruct (A_eq_dec x y); [exact IH|].
  constructor; [|exact IH].
  intros H. apply in_remove in H. tauto.
Qed.

Lemma first_seen_In (x : A) (l : list A) :
  In x (first_seen A_eq_dec l) <-> In x l.
Proof.
  induction l as [|y l IH]; simpl; [tauto|].
  split.
  - intros [->|H]; [now left|].
    apply in_remove in H. right. now apply IH.
  - intros [->|H]; [now left|].
    destruct (A_eq_dec y x) as [->|Hne]; [now left|].
    right. apply in_in_remove; [congruence | now apply IH].
Qed.

Lemma first_seen_NoDup (l : list A) : NoDup (first_seen A_eq_dec l).
Proof.
  induction l as [|y l IH]; simpl; constructor.
  - apply remove_In.
  - now apply NoDup_remove_elt.
Qed.

Lemma first_seen_snoc (l : list A) (k : A) :
  first_seen A_eq_dec (l ++ [k])
  = if in_dec A_eq_dec k l
    then first_seen A_eq_dec l
    else first_seen A_eq_dec l ++ [k].
Proof.
  induction l as [|y l IH]; simpl; [reflexivity|].
  rewrite IH.
  destruct (in_dec A_eq_dec k l) as [Hin|Hnotin].
  - destruct (A_eq_dec y k); reflexivity.
  - rewrite remove_app. simpl.
    destruct (A_eq_dec y k) as [->|Hne].
    + now rewrite app_nil_r.
    + reflexivity.
Qed.

Lemma first_seen_in_dec (B : Type) (l : list A) (k : A) (x y : B) :
  (if in_dec A_eq_dec k (first_seen A_eq_dec l) then x else y)
  = (if in_dec A_eq_dec k l then x else y).
Proof.
  destruct (in_dec A_eq_dec k (first_seen A_eq_dec l)) as [H|H];
    destruct (in_dec A_eq_dec k l) as [H'|H']; try reflexivity;
    rewrite first_seen_In in H; contradiction.
Qed.

End FirstSeenFacts.

(** ** The shuffle stage *)

Section ShuffleFacts.

Lemma shuffle_snoc (pairs : list (str * Z)) (k : str) (v : Z) :
  shuffle_function (pairs ++ [(k, v)])
  = append_at str_eq_dec (shuffle_function pairs) k v.
Proof.
  unfold shuffle_function, items. now rewrite fold_left_app.
Qed.

Lemma shuffle_keys (pairs : list (str * Z)) :
  keys (shuffle_function pairs) = first_seen str_eq_dec (map fst pairs).
Proof.
  induction pairs as [|[k v] pairs IH] using rev_ind; [reflexivity|].
  rewrite shuffle_snoc, keys_append_at, IH, map_app. simpl.
  rewrite first_seen_snoc. apply first_seen_in_dec.
Qed.

Lemma shuffle_keys_NoDup (pairs : list (str * Z)) :
  NoDup (keys (shuffle_function pairs)).
Proof. rewrite shuffle_keys. apply first_seen_NoDup. Qed.

Lemma contributions_snoc (w k : str) (v : Z) (pairs : list (str * Z)) :
  contributions w (pairs ++ [(k, v)])
  = contributions w pairs ++ (if str_eq_dec k w then [v] else []).
Proof.
  unfold contributions. rewrite filter_app, map_app. simpl.
  destruct (str_eq_dec k w); reflexivity.
Qed.

Lemma contributions_absent (w : str) (pairs : list (str * Z)) :
  ~ In w (map fst pairs) -> contributions w pairs = [].
Proof.
  unfold contributions.
  induction pairs as [|[k v] pairs IH]; simpl; intros H; [reflexivity|].
  destruct (str_eq_dec k w); [tauto|]. apply IH. tauto.
Qed.

Lemma shuffle_get (pairs : list (str * Z)) (w : str) :
  get str_eq_dec (shuffle_function pairs) w
  = if in_dec str_eq_dec w (map fst pairs)
    then Some (contributions w pairs)
    else None.
Proof.
  induction pairs as [|[k v] pairs IH] using rev_ind; [reflexivity|].
  rewrite shuffle_snoc, get_append_at, contributions_snoc, map_app.
  simpl. unfold get_default.
  destruct (str_eq_dec k w) as [->|Hne].
  - rewrite IH.
    destruct (in_dec str_eq_dec w (map fst pairs ++ [w])) as [_|H];
      [|exfalso; apply H, in_or_app; right; now left].
    destruct (in_dec str_eq_dec w (map fst pairs)) as [|H]; [reflexivity|].
    now rewrite contributions_absent.
  - rewrite IH, app_nil_r.
    destruct (in_dec str_eq_dec w (map fst pairs)) as [H|H];
      destruct (in_dec str_eq_dec w (map fst pairs ++ [k])) as [H'|H'];
      try reflexivity; exfalso.
    + apply H', in_or_app. now left.
    + apply in_app_or in H' as [H'|[H'|[]]]; [tauto | congruence].
Qed.

Lemma shuffle_entries (pairs : list (str * Z)) (w : str) (vs : list Z) :
  In (w, vs) (shuffle_function pairs) -> vs = contributions w pairs.
Proof.
  intros Hin.
  apply (get_In str_eq_dec) in Hin; [|apply shuffle_keys_NoDup].
  rewrite shuffle_get in Hin.
  destruct (in_dec str_eq_dec w (map fst pairs)); congruence.
Qed.

End ShuffleFacts.

(** C9: [shuffle_function] returns one group per distinct word, the groups
    in the order in which the words first occur in the input, and the group
    of a word holds the contributions of that word in input order. *)
Theorem shuffle_function_insertion_ordered (pairs : list (str * Z)) :
  shuffle_function pairs
  = map (fun word => (word, contributions word pairs))
        (first_seen str_eq_dec (map fst pairs)).
Proof.
  rewrite <- shuffle_keys.
  apply dict_by_keys. intros k v. apply shuffle_entries.
Qed.

(** ** The reduce stage against a direct count *)

Section ReduceFacts.

Lemma sum_from (values : list Z) (a : Z) :
  fold_left Z.add values a = (a + sum values)%Z.
Proof.
  unfold sum. revert a.
  induction values as [|x values IH]; intros a; simpl; [lia|].
  rewrite (IH (a + x)%Z), (IH x). lia.
Qed.

Lemma sum_cons (x : Z) (values : list Z) :
  sum (x :: values) = (x + sum values)%Z.
Proof. unfold sum at 1. simpl. apply sum_from. Qed.

Lemma sum_snoc (values : list Z) (x : Z) :
  sum (values ++ [x]) = (sum values + x)%Z.
Proof. unfold sum. now rewrite fold_left_app. Qed.

Lemma keys_reduced (d : list (str * list Z)) :
  keys (map reduce_function d) = keys d.
Proof.
  unfold keys. rewrite map_map. apply map_ext. now intros [k vs].
Qed.

(** Reducing after one more append is one update of the reduced mapping. *)
Lemma reduce_append_at (d : list (str * list Z)) (k : str) (v : Z) :
  map reduce_function (append_at str_eq_dec d k v)
  = set str_eq_dec (map reduce_function d) k
        (get_default str_eq_dec (map reduce_function d) k 0 + v)%Z.
Proof.
  unfold get_default.
  induction d as [|[k0 vs] d IH]; simpl; [reflexivity|].
  destruct (str_eq_dec k0 k) as [->|Hne]; simpl.
  - now rewrite sum_snoc.
  - now rewrite IH.
Qed.

Lemma frequency_count_snoc (tokens : list str) (w : str) :
  frequency_count (tokens ++ [w])
  = set str_eq_dec (frequency_count tokens) w
        (get_default str_eq_dec (frequency_count tokens) w 0 + 1)%Z.
Proof. unfold frequency_count. now rewrite fold_left_app. Qed.

Lemma reduced_is_frequency_count (tokens : list str) :
  map reduce_function (shuffle_function (map map_function tokens))
  = frequency_count tokens.
Proof.
  induction tokens as [|w tokens IH] using rev_ind; [reflexivity|].
  rewrite map_app. simpl. unfold map_function at 2.
  rewrite shuffle_snoc, reduce_append_at, IH.
  symmetry. apply frequency_count_snoc.
Qed.

Lemma stages_are_frequency_count (tokens : list str) :
  of_pairs str_eq_dec
    (executor_map reduce_function
       (shuffle_function (executor_map map_function tokens)))
  = frequency_count tokens.
Proof.
  unfold executor_map.
  rewrite of_pairs_NoDup; [apply reduced_is_frequency_count|].
  rewrite keys_reduced. apply shuffle_keys_NoDup.
Qed.

Lemma map_reduce_frequency_count (text : str) :
  map_reduce text = frequency_count (words_of text).
Proof. apply stages_are_frequency_count. Qed.

Lemma total_count_set (d : dict str Z) (w : str) :
  total_count (set str_eq_dec d w (get_default str_eq_dec d w 0 + 1)%Z)
  = (total_count d + 1)%Z.
Proof.
  unfold total_count, items, get_default.
  induction d as [|[k n] d IH]; simpl; [reflexivity|].
  destruct (str_eq_dec k w) as [->|Hne]; simpl.
  - rewrite !sum_cons. lia.
  - rewrite !sum_cons, IH. lia.
Qed.

Lemma total_count_frequency_count (tokens : list str) :
  total_count (frequency_count tokens) = Z.of_nat (length tokens).
Proof.
  induction tokens as [|w tokens IH] using rev_ind; [reflexivity|].
  rewrite frequency_count_snoc, total_count_set, IH, length_app.
  simpl. lia.
Qed.

Lemma frequency_count_get (tokens : list str) (w : str) :
  get str_eq_dec (frequency_count tokens) w
  = if in_dec str_eq_dec w tokens
    then Some (Z.of_nat (count_occ str_eq_dec tokens w))
    else None.
Proof.
  induction tokens as [|t tokens IH] using rev_ind; [reflexivity|].
  rewrite frequency_count_snoc, get_set, count_occ_app. simpl.
  unfold get_default.
  destruct (str_eq_dec t w) as [->|Hne].
  - rewrite IH.
    destruct (in_dec str_eq_dec w (tokens ++ [w])) as [_|H];
      [|exfalso; apply H, in_or_app; right; now left].
    destruct (in_dec str_eq_dec w tokens) as [|H].
    + f_equal. lia.
    + rewrite (count_occ_not_In str_eq_dec) in H. rewrite H. reflexivity.
  - rewrite IH, Nat.add_0_r.
    destruct (in_dec str_eq_dec w tokens) as [H|H];
      destruct (in_dec str_eq_dec w (tokens ++ [t])) as [H'|H'];
      try reflexivity; exfalso.
    + apply H', in_or_app. now left.
    + apply in_app_or in H' as [H'|[H'|[]]]; [tauto | congruence].
Qed.

Lemma frequency_count_keys (tokens : list str) :
  keys (frequency_count tokens) = first_seen str_eq_dec tokens.
Proof.
  rewrite <- reduced_is_frequency_count, keys_reduced, shuffle_keys.
  rewrite map_map. simpl. now rewrite map_id.
Qed.

End ReduceFacts.

(** C2: mapping every token, shuffling the pairs and reducing every group
    gives the dictionary that a direct single-pass frequency count of the
    tokens builds: the same words with the same counts (and the same
    insertion order). *)
Theorem map_shuffle_reduce_refines_frequency_count (tokens : list str) :
  of_pairs str_eq_dec
    (executor_map reduce_function
       (shuffle_function (executor_map map_function tokens)))
  = frequency_count tokens.
Proof. apply stages_are_frequency_count. Qed.

(** C1: the totals of the mapping returned by [map_reduce] add up to the
    number of tokens left after deleting the punctuation, splitting on white
    space and keeping the words of length at least 4. *)
Theorem map_reduce_totals_count_tokens (text : str) :
  total_count (map_reduce text)
  = Z.of_nat
      (length
         (filter (fun word => 4 <=? length word)
            (split (filter (fun c => negb (is_punctuation c)) text)))).
Proof.
  rewrite map_reduce_frequency_count, total_count_frequency_count.
  unfold words_of. now rewrite remove_punctuation_filter.
Qed.

(** ** The tokenizer *)

Section TokenizerFacts.

Lemma words_of_In (text w : str) :
  In w (words_of text)
  <-> In w (split (remove_punctuation text)) /\ 4 <= length w.
Proof.
  unfold words_of, long_enough. rewrite filter_In, Nat.leb_le. tauto.
Qed.

Lemma filter_keeps_all (A : Type) (f : A -> bool) (l : list A) :
  forallb f l = true -> filter f l = l.
Proof.
  induction l as [|x l IH]; simpl; [reflexivity|].
  intros H. apply andb_prop in H as [Hx Hl]. rewrite Hx. f_equal. now apply IH.
Qed.

(** Words joined by one punctuation character only become one word. *)
Lemma punctuation_fuses (u v : str) (p : char) :
  is_punctuation p = true ->
  forallb (fun c => negb (is_punctuation c)) (u ++ v) = true ->
  is_word (u ++ v) ->
  split (remove_punctuation (u ++ p :: v)) = [u ++ v].
Proof.
  intros Hp Huv Hw.
  rewrite remove_punctuation_filter, filter_app. simpl. rewrite Hp. simpl.
  rewrite <- filter_app, filter_keeps_all by exact Huv.
  rewrite <- (app_nil_r (u ++ v)) at 1.
  rewrite split_word; [reflexivity | exact Hw | exact I].
Qed.

Lemma words_of_substring (text w : str) :
  In w (words_of text) ->
  substring w (filter (fun c => negb (is_punctuation c)) text).
Proof.
  intros H. apply words_of_In in H as [H _].
  rewrite remove_punctuation_filter in H. now apply split_In in H.
Qed.

End TokenizerFacts.

(** C3: the tokenizer deletes exactly the punctuation characters (nothing
    is put in their place, so words that only punctuation separated become
    one word), splits what is left on runs of white space, and keeps exactly
    the words of length at least 4. *)
Theorem tokenizer_deletes_splits_filters (text : str) :
  remove_punctuation text = filter (fun c => negb (is_punctuation c)) text
  /\ (forall u v p,
        is_punctuation p = true ->
        forallb (fun c => negb (is_punctuation c)) (u ++ v) = true ->
        is_word (u ++ v) ->
        split (remove_punctuation (u ++ p :: v)) = [u ++ v])
  /\ split [] = []
  /\ (forall c s, isspace c = true -> split (c :: s) = split s)
  /\ (forall w s, is_word w -> at_break s -> split (w ++ s) = w :: split s)
  /\ words_of text
     = filter (fun word => 4 <=? length word)
              (split (remove_punctuation text))
  /\ (forall w,
        In w (words_of text)
        <-> In w (split (remove_punctuation text)) /\ 4 <= length w).
Proof.
  split; [apply remove_punctuation_filter|].
  split; [apply punctuation_fuses|].
  split; [apply split_nil|].
  split; [apply split_space|].
  split; [apply split_word|].
  split; [reflexivity|].
  apply words_of_In.
Qed.

(** The scenario of the specification: the hyphen is deleted and the two
    halves become one word. *)
Example good_bye_fuses :
  map_reduce (lit "good-bye good-bye") = [(lit "goodbye", 2%Z)].
Proof. vm_compute. reflexivity. Qed.

(** Words of fewer than four characters are all dropped. *)
Example short_words_dropped :
  words_of (lit "The cat sat. The cat ran!") = [].
Proof. vm_compute. reflexivity. Qed.

(** C4: nothing is lowercased.  A word is counted once per exact
    occurrence, character for character, so two tokens that differ, be it
    only in the case of a letter, have separate totals; and every key of the
    result is a token of the text, a contiguous piece of the text once its
    punctuation is deleted, with the characters the text has. *)
Theorem map_reduce_case_sensitive (text : str) :
  (forall w,
      In w (words_of text) ->
      get str_eq_dec (map_reduce text) w
      = Some (Z.of_nat (count_occ str_eq_dec (words_of text) w)))
  /\ (forall w total,
        In (w, total) (items (map_reduce text)) ->
        In w (words_of text)
        /\ substring w (filter (fun c => negb (is_punctuation c)) text)
        /\ total = Z.of_nat (count_occ str_eq_dec (words_of text) w)).
Proof.
  rewrite map_reduce_frequency_count. split.
  - intros w Hw. rewrite frequency_count_get.
    destruct (in_dec str_eq_dec w (words_of text)); [reflexivity | tauto].
  - intros w total Hin. unfold items in Hin.
    assert (Hw : In w (words_of text)).
    { rewrite <- (first_seen_In str_eq_dec), <- frequency_count_keys.
      change w with (fst (w, total)). now apply in_map. }
    split; [exact Hw|]. split; [now apply words_of_substring|].
    apply (get_In str_eq_dec) in Hin.
    + rewrite frequency_count_get in Hin.
      destruct (in_dec str_eq_dec w (words_of text)); congruence.
    + rewrite frequency_count_keys. apply first_seen_NoDup.
Qed.

(** Three spellings of one word are three entries. *)
Example case_is_kept :
  map_reduce (lit "Apple apple APPLE apple")
  = [(lit "Apple", 1%Z); (lit "apple", 2%Z); (lit "APPLE", 1%Z)].
Proof. vm_compute. reflexivity. Qed.

(** ** Ranking *)

Section RankingFacts.

Variable A : Type.
Variable key : A -> Z.

Lemma insert_desc_Permutation (x : A) (xs : list A) :
  Permutation (insert_desc key x xs) (x :: xs).
Proof.
  induction xs as [|y ys IH]; simpl; [reflexivity|].
  destruct (key x <? key y)%Z; [|reflexivity].
  rewrite IH. apply perm_swap.
Qed.

Lemma sorted_reverse_Permutation (xs : list A) :
  Permutation (sorted_reverse key xs) xs.
Proof.
  induction xs as [|x xs IH]; simpl; [reflexivity|].
  rewrite insert_desc_Permutation. now apply perm_skip.
Qed.

Lemma insert_desc_HdRel (a x : A) (xs : list A) :
  decreasing key a x ->
  HdRel (decreasing key) a xs ->
  HdRel (decreasing key) a (insert_desc key x xs).
Proof.
  intros Hx Hxs. destruct xs as [|y ys]; simpl; [now constructor|].
  destruct (key x <? key y)%Z; constructor; [|exact Hx].
  now inversion Hxs.
Qed.

Lemma insert_desc_Sorted (x : A) (xs : list A) :
  Sorted (decreasing key) xs ->
  Sorted (decreasing key) (insert_desc key x xs).
Proof.
  induction 1 as [|y ys Hs IH Hhd]; simpl; [repeat constructor|].
  destruct (key x <? key y)%Z eqn:E.
  - constructor; [exact IH|].
    apply insert_desc_HdRel; [|exact Hhd].
    unfold decreasing. apply Z.ltb_lt in E. lia.
  - constructor; [now constructor|].
    constructor. unfold decreasing. apply Z.ltb_ge in E. exact E.
Qed.

Lemma sorted_reverse_Sorted (xs : list A) :
  Sorted (decreasing key) (sorted_reverse key xs).
Proof.
  induction xs as [|x xs IH]; simpl; [constructor|].
  now apply insert_desc_Sorted.
Qed.

Lemma sorted_reverse_StronglySorted (xs : list A) :
  StronglySorted (decreasing key) (sorted_reverse key xs).
Proof.
  apply Sorted_StronglySorted; [|apply sorted_reverse_Sorted].
  intros a b c. unfold decreasing. lia.
Qed.

Lemma slice_to_all (xs : list A) (n : Z) :
  (Z.of_nat (length xs) < n)%Z -> slice_to xs n = xs.
Proof.
  intros H. unfold slice_to.
  destruct (n <? 0)%Z eqn:E; [apply Z.ltb_lt in E; lia|].
  apply firstn_all2. lia.
Qed.

Lemma slice_to_nil (n : Z) : slice_to (@nil A) n = [].
Proof. unfold slice_to. destruct (n <? 0)%Z; apply firstn_nil. Qed.

End RankingFacts.

(** C6: with [top_n] above the number of distinct words, the ranking keeps
    every entry of the mapping, in decreasing order of total; it has as many
    entries as the mapping has words. *)
Theorem ranking_beyond_size_keeps_all (word_freq : dict str Z) (top_n : Z) :
  (Z.of_nat (length (keys word_freq)) < top_n)%Z ->
  Permutation (sorted_words word_freq top_n) (items word_freq)
  /\ StronglySorted by_total_desc (sorted_words word_freq top_n)
  /\ length (sorted_words word_freq top_n) = length (keys word_freq).
Proof.
  intros H. unfold keys in H. rewrite length_map in H.
  assert (E : sorted_words word_freq top_n
              = sorted_reverse (fun item => snd item) (items word_freq)).
  { unfold sorted_words. apply slice_to_all.
    rewrite (Permutation_length (sorted_reverse_Permutation _ _)).
    exact H. }
  rewrite E. split; [apply sorted_reverse_Permutation|].
  split.
  - exact (sorted_reverse_StronglySorted (fun item : str * Z => snd item)
                                         (items word_freq)).
  - rewrite (Permutation_length (sorted_reverse_Permutation _ _)).
    unfold keys, items. now rewrite length_map.
Qed.

Lemma ranking_beyond_size_keeps_all_witness :
  Permutation
    (sorted_words [(lit "apple", 2%Z); (lit "banana", 1%Z); (lit "grape", 3%Z)]
                  15)
    (items [(lit "apple", 2%Z); (lit "banana", 1%Z); (lit "grape", 3%Z)])
  /\ StronglySorted by_total_desc
       (sorted_words
          [(lit "apple", 2%Z); (lit "banana", 1%Z); (lit "grape", 3%Z)] 15)
  /\ length
       (sorted_words
          [(lit "apple", 2%Z); (lit "banana", 1%Z); (lit "grape", 3%Z)] 15)
     = length
         (keys [(lit "apple", 2%Z); (lit "banana", 1%Z); (lit "grape", 3%Z)]).
Proof.
  apply ranking_beyond_size_keeps_all. simpl. lia.
Defined.

(** C5: when no token passes the length filter, as for the empty text,
    [map_reduce] returns the empty mapping and its ranking is the empty
    sequence, whatever [top_n] is. *)
Theorem no_word_gives_empty_ranking (text : str) :
  words_of text = [] ->
  map_reduce text = []
  /\ forall top_n, sorted_words (map_reduce text) top_n = [].
Proof.
  intros H.
  assert (E : map_reduce text = []).
  { rewrite map_reduce_frequency_count, H. reflexivity. }
  rewrite E. split; [reflexivity|].
  intros top_n. unfold sorted_words. simpl. apply slice_to_nil.
Qed.

Lemma no_word_gives_empty_ranking_witness :
  map_reduce [] = []
  /\ forall top_n, sorted_words (map_reduce []) top_n = [].
Proof.
  apply no_word_gives_empty_ranking. reflexivity.
Defined.

(** C8: on the text of the scenario every word passes the filter, the
    counts are apple 2, banana 1 and grape 3, and the two best ranked
    entries are grape with 3 and apple with 2, in that order. *)
Theorem scenario_apple_banana_grape :
  words_of (lit "apple apple banana grape grape grape")
  = [lit "apple"; lit "apple"; lit "banana";
     lit "grape"; lit "grape"; lit "grape"]
  /\ map_reduce (lit "apple apple banana grape grape grape")
     = [(lit "apple", 2%Z); (lit "banana", 1%Z); (lit "grape", 3%Z)]
  /\ sorted_words (map_reduce (lit "apple apple banana grape grape grape")) 2
     = [(lit "grape", 3%Z); (lit "apple", 2%Z)].
Proof. vm_compute. repeat split. Qed.

(** ** Worker pools *)

Section PoolFacts.

Import Pool.

Variables A B : Type.
Variable f : A -> B.
Variable xs : list A.

Lemma update_at_length (fs : list (option B)) (i : nat) (b : option B) :
  length (update_at fs i b) = length fs.
Proof.
  revert i. induction fs as [|y fs IH]; intros [|i]; simpl; auto.
Qed.

Lemma update_at_nth_error (fs : list (option B)) (i j : nat) (b : option B) :
  nth_error (update_at fs i b) j
  = if i =? j
    then (if j <? length fs then Some b else None)
    else nth_error fs j.
Proof.
  revert i j.
  induction fs as [|y fs IH]; intros [|i] [|j]; simpl; try reflexivity.
  - destruct (i =? j); reflexivity.
  - apply IH.
Qed.

Lemma repeat_nth_error (b : option B) (m n : nat) :
  nth_error (repeat b m) n = if n <? m then Some b else None.
Proof.
  revert n. induction m as [|m IH]; intros [|n]; simpl; try reflexivity.
  apply IH.
Qed.

Lemma complete_length (fs : futures B) (i : nat) :
  length (complete f xs fs i) = length fs.
Proof.
  unfold complete. destruct (nth_error xs i); [apply update_at_length|].
  reflexivity.
Qed.

(** After the calls of [order] have completed, the future of a call in
    [order] holds its result and the others are untouched. *)
Lemma completed_nth_error (order : list nat) (fs : futures B) (j : nat) :
  length fs = length xs ->
  nth_error (fold_left (complete f xs) order fs) j
  = if in_dec Nat.eq_dec j order
    then option_map (fun x => Some (f x)) (nth_error xs j)
    else nth_error fs j.
Proof.
  revert fs.
  induction order as [|i order IH]; intros fs Hlen; simpl; [reflexivity|].
  rewrite IH by now rewrite complete_length.
  destruct (in_dec Nat.eq_dec j order) as [Hin|Hnotin].
  - destruct (Nat.eq_dec i j); reflexivity.
  - destruct (Nat.eq_dec i j) as [->|Hne].
    + unfold complete. destruct (nth_error xs j) as [x|] eqn:E; simpl.
      * rewrite update_at_nth_error, Nat.eqb_refl.
        assert (j < length fs).
        { rewrite Hlen. apply nth_error_Some. congruence. }
        destruct (Nat.ltb_spec j (length fs)); [reflexivity | lia].
      * apply nth_error_None. rewrite Hlen. now apply nth_error_None.
    + unfold complete. destruct (nth_error xs i); [|reflexivity].
      rewrite update_at_nth_error.
      destruct (Nat.eqb_spec i j); [congruence | reflexivity].
Qed.

Lemma results_all (bs : list B) : results (map Some bs) = Some bs.
Proof.
  induction bs as [|b bs IH]; simpl; [reflexivity|]. now rewrite IH.
Qed.

(** Whatever the completion order, the pool returns the results in the
    order of the inputs. *)
Lemma executor_map_run_any_order (order : list nat) :
  completion_order (length xs) order ->
  executor_map_run f xs order = Some (executor_map f xs).
Proof.
  intros Hperm. unfold executor_map_run, executor_map.
  rewrite <- results_all. f_equal.
  apply nth_error_ext. intros j.
  rewrite completed_nth_error by apply repeat_length.
  rewrite map_map, nth_error_map.
  destruct (in_dec Nat.eq_dec j order) as [Hin|Hnotin]; [reflexivity|].
  unfold submit. rewrite repeat_nth_error.
  assert (Hj : length xs <= j).
  { destruct (Nat.le_gt_cases (length xs) j) as [|Hlt]; [assumption|].
    exfalso. apply Hnotin.
    apply (Permutation_in j (Permutation_sym Hperm)).
    apply in_seq. lia. }
  rewrite (proj2 (nth_error_None xs j) Hj).
  destruct (Nat.ltb_spec j (length xs)); [lia | reflexivity].
Qed.

End PoolFacts.

(** C7: the result of [map_reduce] does not depend on the order in which
    the workers of the two pools complete their calls: any two runs on the
    same text return the same mapping, with the same total for every
    word. *)
Theorem map_reduce_deterministic
        (text : str) (map_order reduce_order map_order' reduce_order' : list nat) :
  let words := words_of text in
  let groups := shuffle_function (executor_map map_function words) in
  Pool.completion_order (length words) map_order ->
  Pool.completion_order (length groups) reduce_order ->
  Pool.completion_order (length words) map_order' ->
  Pool.completion_order (length groups) reduce_order' ->
  map_reduce_run map_order reduce_order text
  = map_reduce_run map_order' reduce_order' text
  /\ map_reduce_run map_order reduce_order text = Some (map_reduce text).
Proof.
  intros words groups Hm Hr Hm' Hr'.
  assert (run : forall mo ro,
             Pool.completion_order (length words) mo ->
             Pool.completion_order (length groups) ro ->
             map_reduce_run mo ro text = Some (map_reduce text)).
  { intros mo ro Hmo Hro. unfold map_reduce_run.
    fold words. rewrite (@executor_map_run_any_order _ _ map_function words mo Hmo).
    fold groups. rewrite (@executor_map_run_any_order _ _ reduce_function groups ro Hro).
    reflexivity. }
  rewrite (run _ _ Hm Hr), (run _ _ Hm' Hr'). split; reflexivity.
Qed.

Lemma map_reduce_deterministic_witness :
  map_reduce_run [2; 0; 1] [1; 0] (lit "aaaa bbbb aaaa")
  = map_reduce_run [0; 1; 2] [0; 1] (lit "aaaa bbbb aaaa")
  /\ map_reduce_run [2; 0; 1] [1; 0] (lit "aaaa bbbb aaaa")
     = Some (map_reduce (lit "aaaa bbbb aaaa")).
Proof.
  apply map_reduce_deterministic.
  - exact (Permutation_cons_app [0; 1] [] 2 (Permutation_refl [0; 1])).
  - exact (perm_swap 0 1 []).
  - exact (Permutation_refl [0; 1; 2]).
  - exact (Permutation_refl [0; 1]).
Defined.

(** ** Output *)

Section OutputFacts.

Lemma zip_star_items (item : str * Z) (rest : list (str * Z)) :
  zip_star (map tuple_of (item :: rest))
  = [map (fun it => VStr (fst it)) (item :: rest);
     map (fun it => VInt (snd it)) (item :: rest)].
Proof.
  revert item.
  induction rest as [|item' rest IH]; intros item; [reflexivity|].
  change (zip_star (map tuple_of (item :: item' :: rest)))
    with (map (fun p => fst p :: snd p)
              (combine (tuple_of item)
                       (zip_star (map tuple_of (item' :: rest))))).
  rewrite IH. reflexivity.
Qed.

(** With at least one ranked entry the unpacking succeeds. *)
Lemma visualize_top_words_Ok (word_freq : dict str Z) (top_n : Z) :
  sorted_words word_freq top_n <> [] ->
  visualize_top_words word_freq top_n
  = Ok {| printed := sorted_words word_freq top_n;
          pie_sizes := map (fun it => VInt (snd it))
                           (sorted_words word_freq top_n);
          pie_labels := map (fun it => VStr (fst it))
                            (sorted_words word_freq top_n) |}.
Proof.
  unfold visualize_top_words.
  destruct (sorted_words word_freq top_n) as [|item rest]; [congruence|].
  intros _. rewrite zip_star_items. reflexivity.
Qed.

End OutputFacts.

(** C10: [map_reduce] returns the empty mapping on the empty text without
    failing, but [visualize_top_words] raises on the empty mapping, whatever
    [top_n] is: unpacking the transposed entry list into two variables
    finds nothing to unpack. *)
Theorem visualize_top_words_raises_on_empty (top_n : Z) :
  map_reduce [] = []
  /\ sorted_words [] top_n = []
  /\ unpack2 (zip_star (map tuple_of (sorted_words [] top_n)))
     = Raise ValueError
  /\ visualize_top_words [] top_n = Raise ValueError.
Proof.
  assert (E : sorted_words [] top_n = []).
  { unfold sorted_words. simpl. apply slice_to_nil. }
  unfold visualize_top_words. rewrite E. repeat split.
Qed.

(** * Further properties of the code *)

(** ** The mapping returned by [map_reduce] *)

Section ResultFacts.

Lemma substring_forallb (p : char -> bool) (w s : str) :
  substring w s -> forallb p s = true -> forallb p w = true.
Proof.
  intros (a & b & ->) H.
  rewrite !forallb_app in H.
  apply andb_prop in H as [_ H]. now apply andb_prop in H as [H _].
Qed.

Lemma forallb_filter_same (p : char -> bool) (s : str) :
  forallb p (filter p s) = true.
Proof.
  induction s as [|c s IH]; simpl; [reflexivity|].
  destruct (p c) eqn:E; simpl; [now rewrite E|exact IH].
Qed.

Lemma words_of_clean (text w : str) :
  In w (words_of text) -> clean_word w.
Proof.
  intros H. pose proof (words_of_substring _ _ H) as Hsub.
  apply words_of_In in H as [H Hlen].
  apply split_In in H as [[_ Hw] _].
  repeat split; [exact Hlen | exact Hw |].
  apply (substring_forallb _ Hsub), forallb_filter_same.
Qed.

Lemma map_reduce_keys (text : str) :
  keys (map_reduce text) = first_seen str_eq_dec (words_of text).
Proof. rewrite map_reduce_frequency_count. apply frequency_count_keys. Qed.

Lemma map_reduce_get (text w : str) :
  get str_eq_dec (map_reduce text) w
  = if in_dec str_eq_dec w (words_of text)
    then Some (Z.of_nat (count_occ str_eq_dec (words_of text) w))
    else None.
Proof. rewrite map_reduce_frequency_count. apply frequency_count_get. Qed.

Lemma map_reduce_get_default (text w : str) :
  get_default str_eq_dec (map_reduce text) w 0%Z
  = Z.of_nat (count_occ str_eq_dec (words_of text) w).
Proof.
  unfold get_default. rewrite map_reduce_get.
  destruct (in_dec str_eq_dec w (words_of text)) as [|H]; [reflexivity|].
  rewrite (count_occ_not_In str_eq_dec) in H. now rewrite H.
Qed.

Lemma map_reduce_entry (text w : str) (total : Z) :
  In (w, total) (map_reduce text) ->
  In w (words_of text)
  /\ total = Z.of_nat (count_occ str_eq_dec (words_of text) w).
Proof.
  intros Hin.
  assert (Hw : In w (words_of text)).
  { rewrite <- (first_seen_In str_eq_dec), <- map_reduce_keys.
    change w with (fst (w, total)). now apply in_map. }
  split; [exact Hw|].
  apply (get_In str_eq_dec) in Hin.
  - rewrite map_reduce_get in Hin.
    destruct (in_dec str_eq_dec w (words_of text)); congruence.
  - rewrite map_reduce_keys. apply first_seen_NoDup.
Qed.

End ResultFacts.

(** X1: the words of the mapping returned by [map_reduce] are pairwise
    distinct and stand in the order in which they first occur among the
    tokens of the text. *)
Theorem map_reduce_keys_first_occurrence (text : str) :
  keys (map_reduce text) = first_seen str_eq_dec (words_of text)
  /\ NoDup (keys (map_reduce text)).
Proof.
  rewrite map_reduce_keys. split; [reflexivity | apply first_seen_NoDup].
Qed.

(** X2: every entry of the mapping returned by [map_reduce] has a word of
    at least 4 characters that holds neither white space nor punctuation,
    and a total of at least 1. *)
Theorem map_reduce_entries_well_formed (text w : str) (total : Z) :
  In (w, total) (items (map_reduce text)) ->
  4 <= length w
  /\ forallb (fun c => negb (isspace c)) w = true
  /\ forallb (fun c => negb (is_punctuation c)) w = true
  /\ (1 <= total)%Z.
Proof.
  unfold items. intros Hin.
  apply map_reduce_entry in Hin as [Hw ->].
  destruct (words_of_clean _ _ Hw) as (Hlen & Hsp & Hpu).
  repeat split; try assumption.
  apply (count_occ_In str_eq_dec) in Hw. lia.
Qed.

Lemma map_reduce_entries_well_formed_witness :
  4 <= length (lit "grape")
  /\ forallb (fun c => negb (isspace c)) (lit "grape") = true
  /\ forallb (fun c => negb (is_punctuation c)) (lit "grape") = true
  /\ (1 <= 3)%Z.
Proof.
  apply (@map_reduce_entries_well_formed
           (lit "apple apple banana grape grape grape")).
  vm_compute. right. right. left. reflexivity.
Defined.

(** X3: looking up a word in the mapping returned by [map_reduce] finds
    nothing exactly when the word is not a token of the text; in particular
    a word of fewer than 4 characters is never found. *)
Theorem map_reduce_missing_word (text w : str) :
  (get str_eq_dec (map_reduce text) w = None <-> ~ In w (words_of text))
  /\ (length w < 4 -> get str_eq_dec (map_reduce text) w = None).
Proof.
  assert (E : get str_eq_dec (map_reduce text) w = None
              <-> ~ In w (words_of text)).
  { rewrite map_reduce_get.
    destruct (in_dec str_eq_dec w (words_of text)); split;
      try tauto; try discriminate; reflexivity. }
  split; [exact E|].
  intros Hlen. apply E. intros Hin.
  apply words_of_In in Hin. lia.
Qed.

(** ** Texts put together *)

Section ComposeFacts.

Lemma split_from_app (a b cur : str) (c : char) :
  isspace c = true ->
  split_from cur (a ++ c :: b) = split_from cur a ++ split b.
Proof.
  intros Hc. revert cur.
  induction a as [|x a IH]; intros cur; simpl.
  - rewrite Hc. destruct cur; reflexivity.
  - destruct (isspace x).
    + destruct cur; [apply IH|]. simpl. f_equal. apply IH.
    + apply IH.
Qed.

Lemma split_app (a b : str) (c : char) :
  isspace c = true -> split (a ++ c :: b) = split a ++ split b.
Proof. intros Hc. now apply split_from_app. Qed.

Lemma punctuation_not_space (c : char) :
  is_punctuation c = true -> isspace c = false.
Proof.
  unfold is_punctuation. intros H.
  apply existsb_exists in H as (p & Hp & E).
  apply N.eqb_eq in E. subst c.
  repeat (destruct Hp as [<-|Hp]; [reflexivity|]). contradiction.
Qed.

Lemma space_not_punctuation (c : char) :
  isspace c = true -> is_punctuation c = false.
Proof.
  intros Hc. destruct (is_punctuation c) eqn:E; [|reflexivity].
  apply punctuation_not_space in E. congruence.
Qed.

Lemma remove_punctuation_app (a b : str) :
  remove_punctuation (a ++ b) = remove_punctuation a ++ remove_punctuation b.
Proof. rewrite !remove_punctuation_filter. apply filter_app. Qed.

Lemma remove_punctuation_cons (c : char) (s : str) :
  remove_punctuation (c :: s)
  = if is_punctuation c then remove_punctuation s
    else c :: remove_punctuation s.
Proof.
  rewrite !remove_punctuation_filter. simpl. now destruct (is_punctuation c).
Qed.

Lemma words_of_app (a b : str) (c : char) :
  isspace c = true -> words_of (a ++ c :: b) = words_of a ++ words_of b.
Proof.
  intros Hc. unfold words_of.
  rewrite remove_punctuation_app, remove_punctuation_cons.
  rewrite (space_not_punctuation c Hc), (split_app _ _ c Hc).
  apply filter_app.
Qed.

Lemma words_of_punctuation (a b : str) (p : char) :
  is_punctuation p = true -> words_of (a ++ p :: b) = words_of (a ++ b).
Proof.
  intros Hp. unfold words_of.
  rewrite !remove_punctuation_app, remove_punctuation_cons, Hp. reflexivity.
Qed.

Lemma words_of_nil : words_of [] = [].
Proof. reflexivity. Qed.

Lemma words_of_clean_word (w : str) :
  clean_word w -> words_of w = [w].
Proof.
  intros (Hlen & Hsp & Hpu). unfold words_of.
  rewrite remove_punctuation_filter.
  rewrite (filter_keeps_all (fun c => negb (is_punctuation c)) w Hpu).
  rewrite <- (app_nil_r w) at 1.
  rewrite split_word; [| |exact I].
  - simpl. unfold long_enough.
    destruct (Nat.leb_spec 4 (length w)); [reflexivity | lia].
  - split; [|exact Hsp]. intros ->. simpl in Hlen. lia.
Qed.

End ComposeFacts.

(** X4: the counts of two texts joined by a white space character add up:
    the tokens of the whole are the tokens of the first text followed by
    those of the second, and for every word the total in the whole, taken
    as 0 when the word is absent, is the sum of the two totals. *)
Theorem map_reduce_additive (a b : str) (c : char) (w : str) :
  isspace c = true ->
  words_of (a ++ c :: b) = words_of a ++ words_of b
  /\ get_default str_eq_dec (map_reduce (a ++ c :: b)) w 0%Z
     = (get_default str_eq_dec (map_reduce a) w 0
        + get_default str_eq_dec (map_reduce b) w 0)%Z.
Proof.
  intros Hc. split; [now apply words_of_app|].
  rewrite !map_reduce_get_default, (words_of_app a b c Hc), count_occ_app.
  lia.
Qed.

Lemma map_reduce_additive_witness :
  words_of (lit "apple grape" ++ 10%N :: lit "grape")
  = words_of (lit "apple grape") ++ words_of (lit "grape")
  /\ get_default str_eq_dec
       (map_reduce (lit "apple grape" ++ 10%N :: lit "grape")) (lit "grape")
       0%Z
     = (get_default str_eq_dec (map_reduce (lit "apple grape")) (lit "grape") 0
        + get_default str_eq_dec (map_reduce (lit "grape")) (lit "grape") 0)%Z.
Proof.
  apply map_reduce_additive. reflexivity.
Defined.

(** X5: punctuation never changes the result: a text with a punctuation
    character put in anywhere, inside a word too, gives the mapping of the
    text without it. *)
Theorem map_reduce_ignores_punctuation (a b : str) (p : char) :
  is_punctuation p = true ->
  map_reduce (a ++ p :: b) = map_reduce (a ++ b).
Proof.
  intros Hp.
  rewrite !map_reduce_frequency_count. now rewrite words_of_punctuation.
Qed.

Lemma map_reduce_ignores_punctuation_witness :
  map_reduce (lit "good" ++ 45%N :: lit "bye") = map_reduce (lit "good" ++ lit "bye").
Proof.
  apply map_reduce_ignores_punctuation. reflexivity.
Defined.

(** X6: only the presence of white space matters: which white space
    character separates two words makes no difference, a run of white space
    counts as one separator, and white space at either end of the text is
    ignored. *)
Theorem map_reduce_white_space_normalised (a b : str) (c c' : char) :
  isspace c = true ->
  isspace c' = true ->
  map_reduce (a ++ c :: b) = map_reduce (a ++ c' :: b)
  /\ map_reduce (a ++ c :: c' :: b) = map_reduce (a ++ c :: b)
  /\ map_reduce (c :: a) = map_reduce a
  /\ map_reduce (a ++ [c]) = map_reduce a.
Proof.
  intros Hc Hc'.
  assert (Hb : words_of (c' :: b) = words_of b).
  { change (c' :: b) with ([] ++ c' :: b). now rewrite words_of_app. }
  rewrite !map_reduce_frequency_count.
  rewrite (words_of_app a b c Hc), (words_of_app a b c' Hc').
  rewrite (words_of_app a (c' :: b) c Hc), Hb.
  change (c :: a) with ([] ++ c :: a).
  rewrite (words_of_app [] a c Hc), (words_of_app a [] c Hc).
  rewrite words_of_nil, app_nil_r. repeat split.
Qed.

Lemma map_reduce_white_space_normalised_witness :
  map_reduce (lit "apple" ++ 32%N :: lit "grape")
  = map_reduce (lit "apple" ++ 9%N :: lit "grape")
  /\ map_reduce (lit "apple" ++ 32%N :: 9%N :: lit "grape")
     = map_reduce (lit "apple" ++ 32%N :: lit "grape")
  /\ map_reduce (32%N :: lit "apple") = map_reduce (lit "apple")
  /\ map_reduce (lit "apple" ++ [32%N]) = map_reduce (lit "apple").
Proof.
  apply map_reduce_white_space_normalised; reflexivity.
Defined.

(** X7: a text made of words of at least 4 characters without white space
    or punctuation, joined by single spaces, is tokenized back into exactly
    these words, and [map_reduce] returns their direct frequency count. *)
Theorem clean_words_round_trip (ws : list str) :
  Forall clean_word ws ->
  words_of (unwords ws) = ws
  /\ map_reduce (unwords ws) = frequency_count ws.
Proof.
  intros H.
  assert (E : words_of (unwords ws) = ws).
  { induction H as [|w ws Hw Hws IH]; [reflexivity|].
    destruct ws as [|w' ws]; [now apply words_of_clean_word|].
    change (unwords (w :: w' :: ws)) with (w ++ 32%N :: unwords (w' :: ws)).
    rewrite words_of_app by reflexivity.
    rewrite IH, words_of_clean_word by exact Hw. reflexivity. }
  split; [exact E|]. now rewrite map_reduce_frequency_count, E.
Qed.

Lemma clean_words_round_trip_witness :
  words_of (unwords [lit "grape"; lit "apple"; lit "grape"])
  = [lit "grape"; lit "apple"; lit "grape"]
  /\ map_reduce (unwords [lit "grape"; lit "apple"; lit "grape"])
     = frequency_count [lit "grape"; lit "apple"; lit "grape"].
Proof.
  apply clean_words_round_trip.
  repeat constructor; simpl; lia.
Defined.

(** ** What the shuffle stage keeps *)

Section UngroupFacts.

Lemma ungroup_append_at (d : list (str * list Z)) (k : str) (v : Z) :
  Permutation (ungroup (append_at str_eq_dec d k v)) (ungroup d ++ [(k, v)]).
Proof.
  unfold ungroup.
  induction d as [|[k0 vs] d IH]; simpl; [reflexivity|].
  destruct (str_eq_dec k0 k) as [->|Hne]; simpl.
  - rewrite map_app. simpl. rewrite <- !app_assoc.
    apply Permutation_app_head. apply Permutation_app_comm.
  - rewrite <- app_assoc. now apply Permutation_app_head.
Qed.

Lemma append_at_nonempty (d : list (str * list Z)) (k : str) (v : Z) :
  Forall (fun g => snd g <> []) d ->
  Forall (fun g => snd g <> []) (append_at str_eq_dec d k v).
Proof.
  induction 1 as [|[k0 vs] d Hg Hd IH]; simpl.
  - constructor; [discriminate | constructor].
  - destruct (str_eq_dec k0 k); constructor; try assumption.
    simpl. intros E. now apply app_eq_nil in E as [_ E].
Qed.

End UngroupFacts.

(** X8: the shuffle stage loses and invents nothing: the pairs spelled out
    from the groups are a rearrangement of the input pairs, and no group is
    empty. *)
Theorem shuffle_function_conserves_pairs (pairs : list (str * Z)) :
  Permutation (ungroup (shuffle_function pairs)) pairs
  /\ Forall (fun g => snd g <> []) (shuffle_function pairs).
Proof.
  induction pairs as [|[k v] pairs [IHp IHn]] using rev_ind.
  - split; [reflexivity | constructor].
  - rewrite shuffle_snoc. split.
    + rewrite ungroup_append_at. now apply Permutation_app_tail.
    + now apply append_at_nonempty.
Qed.

(** ** The ranking for any [top_n] *)

Section SliceFacts.

Variable A : Type.

Lemma slice_to_firstn (xs : list A) (n : Z) :
  exists k, slice_to xs n = firstn k xs.
Proof. unfold slice_to. destruct (n <? 0)%Z; eauto. Qed.

Lemma slice_to_length (xs : list A) (n : Z) :
  Z.of_nat (length (slice_to xs n))
  = if (n <? 0)%Z
    then Z.max 0 (Z.of_nat (length xs) + n)
    else Z.min n (Z.of_nat (length xs)).
Proof.
  unfold slice_to.
  destruct (n <? 0)%Z eqn:E; rewrite length_firstn; lia.
Qed.

Lemma StronglySorted_firstn (R : A -> A -> Prop) (k : nat) (xs : list A) :
  StronglySorted R xs -> StronglySorted R (firstn k xs).
Proof.
  intros H. revert k.
  induction H as [|x xs Hs IH Hall]; intros [|k]; simpl; try constructor.
  - apply IH.
  - rewrite Forall_forall in *. intros y Hy. apply Hall.
    rewrite <- (firstn_skipn k xs). apply in_or_app. now left.
Qed.

Lemma StronglySorted_across (R : A -> A -> Prop) (xs ys : list A) :
  StronglySorted R (xs ++ ys) ->
  forall a b, In a xs -> In b ys -> R a b.
Proof.
  induction xs as [|x xs IH]; simpl; intros H a b Ha Hb; [contradiction|].
  inversion H as [|? ? Hs Hall]; subst.
  destruct Ha as [->|Ha].
  - rewrite Forall_forall in Hall. apply Hall, in_or_app. now right.
  - now apply IH.
Qed.

End SliceFacts.

Section StableFacts.

Lemma with_total_insert_desc (t : Z) (x : str * Z) (xs : list (str * Z)) :
  with_total t (insert_desc (fun item => snd item) x xs)
  = with_total t (x :: xs).
Proof.
  unfold with_total.
  induction xs as [|y ys IH]; simpl; [reflexivity|].
  destruct (snd x <? snd y)%Z eqn:E; [|reflexivity].
  apply Z.ltb_lt in E. simpl in *. rewrite IH.
  destruct (Z.eqb_spec (snd x) t), (Z.eqb_spec (snd y) t);
    try reflexivity; lia.
Qed.

Lemma with_total_sorted_reverse (t : Z) (xs : list (str * Z)) :
  with_total t (sorted_reverse (fun item => snd item) xs) = with_total t xs.
Proof.
  induction xs as [|x xs IH]; simpl; [reflexivity|].
  rewrite with_total_insert_desc. unfold with_total in *. simpl.
  now rewrite IH.
Qed.

End StableFacts.

(** X9: for every [top_n], negative or not, the ranking is in decreasing
    order of total, holds only entries of the mapping, and its length is
    the smaller of [top_n] and the number of entries when [top_n] is not
    negative, and the number of entries less [-top_n], or 0, when it is. *)
Theorem ranking_sorted_and_bounded (word_freq : dict str Z) (top_n : Z) :
  StronglySorted by_total_desc (sorted_words word_freq top_n)
  /\ incl (sorted_words word_freq top_n) (items word_freq)
  /\ Z.of_nat (length (sorted_words word_freq top_n))
     = if (top_n <? 0)%Z
       then Z.max 0 (Z.of_nat (length (items word_freq)) + top_n)
       else Z.min top_n (Z.of_nat (length (items word_freq))).
Proof.
  unfold sorted_words.
  set (s := sorted_reverse (fun item : str * Z => snd item) (items word_freq)).
  assert (Hperm : Permutation s (items word_freq))
    by apply sorted_reverse_Permutation.
  split; [|split].
  - destruct (slice_to_firstn s top_n) as [k ->].
    apply StronglySorted_firstn.
    exact (sorted_reverse_StronglySorted (fun item : str * Z => snd item)
                                         (items word_freq)).
  - destruct (slice_to_firstn s top_n) as [k ->].
    intros x Hx. apply (Permutation_in x Hperm).
    rewrite <- (firstn_skipn k s). apply in_or_app. now left.
  - rewrite slice_to_length, (Permutation_length Hperm). reflexivity.
Qed.

(** X10: the ranking keeps the best: an entry of the mapping that the
    ranking leaves out has a total no greater than that of any entry that
    the ranking holds. *)
Theorem ranking_keeps_the_greatest
        (word_freq : dict str Z) (top_n : Z) (kept left_out : str * Z) :
  In kept (sorted_words word_freq top_n) ->
  In left_out (items word_freq) ->
  ~ In left_out (sorted_words word_freq top_n) ->
  (snd left_out <= snd kept)%Z.
Proof.
  unfold sorted_words.
  set (s := sorted_reverse (fun item : str * Z => snd item) (items word_freq)).
  destruct (slice_to_firstn s top_n) as [k ->].
  intros Hkept Hin Hout.
  assert (Hs : StronglySorted by_total_desc (firstn k s ++ skipn k s)).
  { rewrite firstn_skipn.
    exact (sorted_reverse_StronglySorted (fun item : str * Z => snd item)
                                         (items word_freq)). }
  apply (StronglySorted_across _ _ Hs kept left_out Hkept).
  assert (H : In left_out s).
  { apply (Permutation_in left_out
             (Permutation_sym (sorted_reverse_Permutation _ (items word_freq)))).
    exact Hin. }
  rewrite <- (firstn_skipn k s) in H.
  apply in_app_or in H as [H|H]; [contradiction | exact H].
Qed.

Lemma ranking_keeps_the_greatest_witness :
  (snd (lit "banana", 1%Z) <= snd (lit "apple", 2%Z))%Z.
Proof.
  apply (@ranking_keeps_the_greatest
           [(lit "apple", 2%Z); (lit "banana", 1%Z); (lit "grape", 3%Z)] 2).
  - vm_compute. right. left. reflexivity.
  - vm_compute. right. left. reflexivity.
  - vm_compute. intros [H|[H|[]]]; discriminate H.
Defined.

(** X11: ties are ranked in the order of the mapping: for every total, the
    sort leaves the entries with that total in the order they have in the
    mapping, and the ranked entries with that total are the first of them,
    in the same order. *)
Theorem ranking_ties_in_insertion_order
        (word_freq : dict str Z) (top_n : Z) (t : Z) :
  with_total t (sorted_reverse (fun item => snd item) (items word_freq))
  = with_total t (items word_freq)
  /\ exists cut_off,
      with_total t (items word_freq)
      = with_total t (sorted_words word_freq top_n) ++ cut_off.
Proof.
  split; [apply with_total_sorted_reverse|].
  unfold sorted_words.
  set (s := sorted_reverse (fun item : str * Z => snd item) (items word_freq)).
  destruct (slice_to_firstn s top_n) as [k ->].
  exists (with_total t (skipn k s)).
  unfold with_total at 2 3. rewrite <- filter_app, firstn_skipn.
  symmetry. apply with_total_sorted_reverse.
Qed.

(** ** The output stage and the main block *)

Section MainFacts.

Lemma sorted_words_length (word_freq : dict str Z) (top_n : Z) :
  Z.of_nat (length (sorted_words word_freq top_n))
  = if (top_n <? 0)%Z
    then Z.max 0 (Z.of_nat (length word_freq) + top_n)
    else Z.min top_n (Z.of_nat (length word_freq)).
Proof.
  unfold sorted_words.
  rewrite slice_to_length.
  rewrite (Permutation_length (sorted_reverse_Permutation _ (items word_freq))).
  reflexivity.
Qed.

Lemma sorted_words_nil_iff (word_freq : dict str Z) (top_n : Z) :
  sorted_words word_freq top_n = []
  <-> word_freq = [] \/ top_n = 0%Z
      \/ (top_n <= - Z.of_nat (length word_freq))%Z.
Proof.
  pose proof (sorted_words_length word_freq top_n) as L.
  split.
  - intros E. rewrite E in L. cbn [length] in L.
    destruct word_freq as [|e d]; [now left | right].
    cbn [length] in *. destruct (top_n <? 0)%Z eqn:En.
    + apply Z.ltb_lt in En. lia.
    + apply Z.ltb_ge in En. lia.
  - intros H. apply length_zero_iff_nil.
    destruct (top_n <? 0)%Z eqn:En.
    + apply Z.ltb_lt in En.
      destruct H as [->|[->|H]]; cbn [length] in *; lia.
    + apply Z.ltb_ge in En.
      destruct H as [->|[->|H]]; cbn [length] in *; lia.
Qed.

Lemma visualize_raises_iff (word_freq : dict str Z) (top_n : Z) :
  visualize_top_words word_freq top_n = Raise ValueError
  <-> sorted_words word_freq top_n = [].
Proof.
  split.
  - intros H.
    destruct (sorted_words word_freq top_n) eqn:E; [reflexivity|].
    rewrite visualize_top_words_Ok in H; [discriminate|].
    rewrite E. discriminate.
  - intros E. unfold visualize_top_words. rewrite E. reflexivity.
Qed.

Lemma first_seen_nil (ws : list str) :
  first_seen str_eq_dec ws = [] -> ws = [].
Proof. destruct ws; [reflexivity | discriminate]. Qed.

Lemma map_reduce_nil_iff (text : str) :
  map_reduce text = [] <-> words_of text = [].
Proof.
  split.
  - intros E. apply first_seen_nil. rewrite <- map_reduce_keys, E. reflexivity.
  - intros E. rewrite map_reduce_frequency_count, E. reflexivity.
Qed.

Lemma top_15_nil_iff (text : str) :
  sorted_words (map_reduce text) 15 = [] <-> words_of text = [].
Proof.
  rewrite sorted_words_nil_iff, <- map_reduce_nil_iff.
  split; [|tauto]. intros [H|[H|H]]; [exact H | discriminate | lia].
Qed.

End MainFacts.


(** X13: when [visualize_top_words] does not raise, it prints the ranking,
    which is not empty, and the chart gets the words of the ranking as
    labels and their totals as sizes, entry by entry in the order of the
    ranking. *)
Theorem visualize_top_words_shows_ranking
        (word_freq : dict str Z) (top_n : Z) (shown : rendering) :
  visualize_top_words word_freq top_n = Ok shown ->
  printed shown = sorted_words word_freq top_n
  /\ printed shown <> []
  /\ pie_labels shown = map (fun item => VStr (fst item)) (printed shown)
  /\ pie_sizes shown = map (fun item => VInt (snd item)) (printed shown).
Proof.
  intros H.
  destruct (sorted_words word_freq top_n) as [|item rest] eqn:E.
  - unfold visualize_top_words in H. rewrite E in H. discriminate.
  - rewrite visualize_top_words_Ok in H by (rewrite E; discriminate).
    inversion H; subst; simpl. rewrite E.
    repeat split. discriminate.
Qed.

Lemma visualize_top_words_shows_ranking_witness :
  printed {| printed := [(lit "aaaa", 2%Z)];
             pie_sizes := [VInt 2];
             pie_labels := [VStr (lit "aaaa")] |}
  = sorted_words [(lit "aaaa", 2%Z)] 15
  /\ printed {| printed := [(lit "aaaa", 2%Z)];
                pie_sizes := [VInt 2];
                pie_labels := [VStr (lit "aaaa")] |} <> []
  /\ pie_labels {| printed := [(lit "aaaa", 2%Z)];
                   pie_sizes := [VInt 2];
                   pie_labels := [VStr (lit "aaaa")] |}
     = map (fun item => VStr (fst item))
           (printed {| printed := [(lit "aaaa", 2%Z)];
                       pie_sizes := [VInt 2];
                       pie_labels := [VStr (lit "aaaa")] |})
  /\ pie_sizes {| printed := [(lit "aaaa", 2%Z)];
                  pie_sizes := [VInt 2];
                  pie_labels := [VStr (lit "aaaa")] |}
     = map (fun item => VInt (snd item))
           (printed {| printed := [(lit "aaaa", 2%Z)];
                       pie_sizes := [VInt 2];
                       pie_labels := [VStr (lit "aaaa")] |}).
Proof.
  apply visualize_top_words_shows_ranking. reflexivity.
Defined.



(** X15: when the download fails, or gives a text without any token (the
    empty text, or words of fewer than 4 characters only), the main block
    renders nothing and logs a ValueError; a failed download has been logged
    by [get_text] before. *)
Theorem main_block_without_words (outcome : http_outcome) :
  (forall text, outcome = Response text -> words_of text = []) ->
  main_block outcome
  = (None,
     match outcome with
     | Response _ => [MainBlockError ValueError]
     | RequestException => [DownloadError; MainBlockError ValueError]
     end).
Proof.
  intros H. destruct outcome as [text|]; [|reflexivity].
  specialize (H text eq_refl).
  unfold main_block. simpl.
  destruct text as [|c text]; [reflexivity|]. simpl.
  assert (E : visualize_top_words (map_reduce (c :: text)) 15
              = Raise ValueError).
  { apply visualize_raises_iff, top_15_nil_iff, H. }
  rewrite E. reflexivity.
Qed.

Lemma main_block_without_words_witness :
  main_block (Response (lit "The cat sat. The cat ran!"))
  = (None, [MainBlockError ValueError]).
Proof.
  apply (@main_block_without_words
           (Response (lit "The cat sat. The cat ran!"))).
  intros text E. inversion E. vm_compute. reflexivity.
Defined.

(** ** The stages on their own *)

Section StageFacts.

Lemma contributions_mapped (w : str) (tokens : list str) :
  contributions w (map map_function tokens)
  = repeat 1%Z (count_occ str_eq_dec tokens w).
Proof.
  unfold contributions.
  induction tokens as [|t tokens IH]; simpl; [reflexivity|].
  destruct (str_eq_dec t w); simpl; now rewrite IH.
Qed.

Lemma sum_repeat_1 (n : nat) : sum (repeat 1%Z n) = Z.of_nat n.
Proof.
  induction n as [|n IH]; [reflexivity|].
  change (repeat 1%Z (S n)) with (1%Z :: repeat 1%Z n).
  rewrite sum_cons, IH. lia.
Qed.

Lemma filter_length_le (A : Type) (f : A -> bool) (l : list A) :
  length (filter f l) <= length l.
Proof.
  induction l as [|x l IH]; simpl; [lia|].
  destruct (f x); simpl; lia.
Qed.

Lemma filter_idempotent (A : Type) (f : A -> bool) (l : list A) :
  filter f (filter f l) = filter f l.
Proof.
  induction l as [|x l IH]; simpl; [reflexivity|].
  destruct (f x) eqn:E; simpl; [rewrite E; now f_equal | exact IH].
Qed.

End StageFacts.

(** X16: [remove_punctuation] leaves no punctuation character, never makes
    the text longer, changes nothing when applied a second time, and can be
    applied piece by piece. *)
Theorem remove_punctuation_cleans (text more : str) :
  forallb (fun c => negb (is_punctuation c)) (remove_punctuation text) = true
  /\ length (remove_punctuation text) <= length text
  /\ remove_punctuation (remove_punctuation text) = remove_punctuation text
  /\ remove_punctuation (text ++ more)
     = remove_punctuation text ++ remove_punctuation more.
Proof.
  rewrite !remove_punctuation_filter.
  split; [apply forallb_filter_same|].
  split; [apply filter_length_le|].
  split; [apply filter_idempotent | apply filter_app].
Qed.

(** X17: between the map stage and the reduce stage the group of a word
    holds one 1 per occurrence of the word among the tokens, and
    [reduce_function] turns it into the number of these occurrences. *)
Theorem groups_hold_ones (tokens : list str) (w : str) (vs : list Z) :
  In (w, vs) (shuffle_function (executor_map map_function tokens)) ->
  vs = repeat 1%Z (count_occ str_eq_dec tokens w)
  /\ reduce_function (w, vs)
     = (w, Z.of_nat (count_occ str_eq_dec tokens w)).
Proof.
  unfold executor_map. intros Hin.
  apply shuffle_entries in Hin. rewrite contributions_mapped in Hin.
  subst vs. split; [reflexivity|].
  simpl. now rewrite sum_repeat_1.
Qed.

Lemma groups_hold_ones_witness :
  [1%Z; 1%Z] = repeat 1%Z (count_occ str_eq_dec
                             [lit "aaaa"; lit "bbbb"; lit "aaaa"] (lit "aaaa"))
  /\ reduce_function (lit "aaaa", [1%Z; 1%Z])
     = (lit "aaaa",
        Z.of_nat (count_occ str_eq_dec
                    [lit "aaaa"; lit "bbbb"; lit "aaaa"] (lit "aaaa"))).
Proof.
  apply groups_hold_ones. vm_compute. left. reflexivity.
Defined.
